(** * BetterSprinkler: the trajectory solver and the particle evaluator

    A shallow embedding of [src/index.tsx]: the class [Simulation]
    ([getCurrent], [addParticles], [calculatePhysics], [solveScenario]), the
    efficiency of [updateTelemetry], and the splash loop and the particle loop
    of [p.draw].

    Numbers.  A JavaScript number is modelled as a real number of the Standard
    Library: [Math.sin], [Math.cos], [Math.exp], [Math.log], [Math.sqrt] and
    [Math.abs] are [sin], [cos], [exp], [ln], [sqrt] and [Rabs], arithmetic is
    exact and [Math.PI] is [PI].  Rounding is therefore not part of the model.
    The one place where the total operations of [R] and JavaScript would take
    visibly different turns, the unguarded division of the Newton loop, is
    modelled explicitly (see [newton_step]).  Scenario identifiers are
    integers. *)

From Stdlib Require Import String Reals Lra Lia ZArith List Bool.
Import ListNotations.

Local Open Scope R_scope.

(** ** Constants *)

Definition BETA : R := 1.5.
Definition G : R := 9.81.

Definition GROUND_LINE_NORM : R := 0.942.
Definition NOZZLE_TOP_NORM : R := 0.150.

Definition PARTICLE_LIFETIME : R := 3000.
Definition TRAIL_LENGTH : nat := 15.

(** ** Data *)

(** An entry [{x, y}] of a particle's [history]. *)
Record Point : Type := mkPoint { pt_x : R; pt_y : R }.

Record Particle : Type := mkParticle {
  startTime : R;
  h0 : R;
  scenario : Z;
  angle : R;
  velocity : R;
  startXNorm : R;
  startYNorm : R;
  isDead : bool;
  size : R;
  history : list Point
}.

Record PhysicsResult : Type := mkPhysicsResult {
  range : R;
  height : R;
  time : R;
  vFinal : R
}.

(** An entry of [Simulation.configs]. *)
Record Config : Type := mkConfig {
  cfg_id : Z;
  cfg_x : R;
  cfg_h0 : R;
  cfg_dir : R;
  cfg_label : string
}.

Definition configs : list Config :=
  [ mkConfig 1 0.17 0.45 1 "S1";
    mkConfig 2 0.51 0.45 1 "S2";
    mkConfig 3 0.901 1.0 (-1) "S3" ].

(** The object literal returned by [calculatePhysics]. *)
Record PhysState : Type := mkPhysState {
  x : R;
  y : R;
  physX : R;
  physY : R;
  impact : bool;
  vImpact : R
}.

(** What a call of [calculatePhysics] produces: [null], a state object, or the
    [TypeError] of reading [dir] of [undefined] when [configs.find] finds no
    entry for the particle's scenario. *)
Inductive Outcome : Type :=
| Null
| Throws
| Ret (s : PhysState).

(** ** The trajectory solver *)

(** The locals [g] and [beta] of [solveScenario]. *)
Definition g : R := 9.81.
Definition beta : R := 1.5.

(** The height [y] and the vertical velocity [vy_t] computed in the body of the
    Newton loop, as functions of the current estimate [t]. *)
Definition y_at (hs vy0 t : R) : R :=
  hs + (1 / beta) * (vy0 + g / beta) * (1 - exp (- beta * t)) - (g * t / beta).

Definition vy_at (vy0 t : R) : R :=
  (vy0 + g / beta) * exp (- beta * t) - (g / beta).

(** One pass of the loop body, [t = t - y / vy_t].  The source divides without
    looking at [vy_t]; in JavaScript a zero divisor yields [Infinity] or [NaN]
    and every later estimate is [Infinity] or [NaN] too, whereas [y / 0] is [0]
    in [R].  [None] stands for that non-finite estimate. *)
Definition newton_step (hs vy0 t : R) : option R :=
  if Req_dec_T (vy_at vy0 t) 0 then None
  else Some (t - y_at hs vy0 t / vy_at vy0 t).

(** [n] passes of the loop from the estimate [t]. *)
Fixpoint newton_loop (n : nat) (hs vy0 t : R) : option R :=
  match n with
  | O => Some t
  | S k =>
      match newton_step hs vy0 t with
      | None => None
      | Some t' => newton_loop k hs vy0 t'
      end
  end.

Definition solver_h0 (scenarioId : Z) : R :=
  if (scenarioId =? 3)%Z then 1.0 else 0.0.

Definition solver_seed (scenarioId : Z) : R :=
  if (scenarioId =? 3)%Z then 0.65 else 0.36.

Definition tApex_of (vy0 : R) : R :=
  - (1 / beta) * ln (g / (g + beta * vy0)).

(** The apex height.  [Math.log] of a negative number is [NaN] and [tApex > 0]
    is then false; [ln] is 0 there, so the test comes out the same way (see
    [tApex_positive_iff]: the branch is taken exactly for an upward launch). *)
Definition maxHeight_of (hs vy0 : R) : R :=
  let tApex := tApex_of vy0 in
  if Rlt_dec 0 tApex
  then hs + (1 / beta) * (vy0 + g / beta) * (1 - exp (- beta * tApex))
          - (g * tApex / beta)
  else hs.

(** [solveScenario].  [None] is the result object whose [time] is not a finite
    number, which arises only from a zero divisor in the Newton loop. *)
Definition solveScenario (scenarioId : Z) (angleDeg v0 : R)
  : option PhysicsResult :=
  let angleRad := (angleDeg * PI) / 180 in
  let vx0 := v0 * cos angleRad in
  let vy0 := v0 * sin angleRad in
  if (scenarioId =? 1)%Z then
    let tFlight := (2 * vy0) / g in
    Some {| range := vx0 * tFlight;
            height := (vy0 * vy0) / (2 * g);
            time := tFlight;
            vFinal := v0 |}
  else
    let hs := solver_h0 scenarioId in
    match newton_loop 15 hs vy0 (solver_seed scenarioId) with
    | None => None
    | Some t =>
        Some {| range := (vx0 / beta) * (1 - exp (- beta * t));
                height := maxHeight_of hs vy0;
                time := t;
                vFinal :=
                  sqrt ((vx0 * exp (- beta * t)) ^ 2
                        + ((vy0 + g / beta) * exp (- beta * t) - g / beta) ^ 2) |}
    end.

(** ** The particle evaluator *)

Definition find_config (s : Z) : option Config :=
  find (fun c => (cfg_id c =? s)%Z) configs.

(** The four locals [dx], [dy], [vx], [vy] after the regime branch. *)
Definition eval_dx (s : Z) (v a dt : R) : R :=
  if (s =? 1)%Z then v * cos a * dt
  else (v * cos a / BETA) * (1 - exp (- BETA * dt)).

Definition eval_dy (s : Z) (v a dt : R) : R :=
  if (s =? 1)%Z then v * sin a * dt - 0.5 * G * dt ^ 2
  else (1 / BETA) * (v * sin a + G / BETA) * (1 - exp (- BETA * dt))
       - (G * dt / BETA).

Definition eval_vx (s : Z) (v a dt : R) : R :=
  if (s =? 1)%Z then v * cos a
  else v * cos a * exp (- BETA * dt).

Definition eval_vy (s : Z) (v a dt : R) : R :=
  if (s =? 1)%Z then v * sin a - G * dt
  else (v * sin a + G / BETA) * exp (- BETA * dt) - (G / BETA).

Definition elapsed (particle : Particle) (now : R) : R :=
  (now - startTime particle) / 1000.

Definition hScale : R :=
  (GROUND_LINE_NORM - NOZZLE_TOP_NORM) / (1.0 - 0.25).

Definition groundYPixel : R :=
  GROUND_LINE_NORM
  - (0.45 - 0.25) * ((GROUND_LINE_NORM - NOZZLE_TOP_NORM) / (1.0 - 0.25)).

Definition mark_dead (particle : Particle) : Particle :=
  {| startTime := startTime particle;
     h0 := h0 particle;
     scenario := scenario particle;
     angle := angle particle;
     velocity := velocity particle;
     startXNorm := startXNorm particle;
     startYNorm := startYNorm particle;
     isDead := true;
     size := size particle;
     history := history particle |}.

(** [calculatePhysics].  The call may set [particle.isDead], so the particle is
    returned with the outcome. *)
Definition calculatePhysics (particle : Particle) (now : R)
  : Outcome * Particle :=
  let dt := elapsed particle now in
  if Rlt_dec dt 0 then (Null, particle)
  else
    match find_config (scenario particle) with
    | None => (Throws, particle)
    | Some cfg =>
        let direction := cfg_dir cfg in
        let s := scenario particle in
        let dx := eval_dx s (velocity particle) (angle particle) dt in
        let dy := eval_dy s (velocity particle) (angle particle) dt in
        let vx := eval_vx s (velocity particle) (angle particle) dt in
        let vy := eval_vy s (velocity particle) (angle particle) dt in
        let physY_ := h0 particle + dy in
        if Rle_dec physY_ 0.45 then
          if Rlt_dec vy 0 then
            (Ret {| x := startXNorm particle + (dx * 0.22 * direction);
                    y := groundYPixel;
                    physX := Rabs dx;
                    physY := 0.45;
                    impact := true;
                    vImpact := sqrt (vx * vx + vy * vy) |},
             mark_dead particle)
          else
            (Ret {| x := startXNorm particle + (dx * 0.22 * direction);
                    y := GROUND_LINE_NORM - (physY_ - 0.25) * hScale;
                    physX := Rabs dx;
                    physY := physY_;
                    impact := false;
                    vImpact := sqrt (vx * vx + vy * vy) |},
             particle)
        else
          (Ret {| x := startXNorm particle + (dx * 0.22 * direction);
                  y := GROUND_LINE_NORM - (physY_ - 0.25) * hScale;
                  physX := Rabs dx;
                  physY := physY_;
                  impact := false;
                  vImpact := sqrt (vx * vx + vy * vy) |},
           particle)
    end.

(** A particle as [addParticles] creates it at time [now] when [cfg] is the
    entry of the active scenario ([getCurrent]), with every [p.random] term
    taken as 0: no jitter of [startTime], [angle] and [velocity].  The
    [size], which the physics never reads, is fixed at 2. *)
Definition jitter_free (cfg : Config) (angleDeg v0 now : R) : Particle :=
  {| startTime := now;
     h0 := cfg_h0 cfg;
     scenario := cfg_id cfg;
     angle := (angleDeg * PI) / 180;
     velocity := v0;
     startXNorm := cfg_x cfg;
     startYNorm := GROUND_LINE_NORM - (cfg_h0 cfg - 0.25) * hScale;
     isDead := false;
     size := 2;
     history := [] |}.

(** The radian measure that [solveScenario] and [addParticles] compute from an
    angle in degrees. *)
Definition to_rad (angleDeg : R) : R := (angleDeg * PI) / 180.



(** ** The particle loop of [p.draw] *)

(** [history.push(pt)] followed by the [shift] of an over-long history. *)
Definition push_history (h : list Point) (pt : Point) : list Point :=
  let h' := h ++ [pt] in
  if (TRAIL_LENGTH <? length h')%nat then tl h' else h'.

Definition set_history (particle : Particle) (h : list Point) : Particle :=
  {| startTime := startTime particle;
     h0 := h0 particle;
     scenario := scenario particle;
     angle := angle particle;
     velocity := velocity particle;
     startXNorm := startXNorm particle;
     startYNorm := startYNorm particle;
     isDead := isDead particle;
     size := size particle;
     history := h |}.

(** The test [now - particle.startTime > PARTICLE_LIFETIME]. *)
Definition expired (particle : Particle) (now : R) : bool :=
  if Rlt_dec PARTICLE_LIFETIME (now - startTime particle) then true else false.

(** What one pass of the particle loop of [p.draw] does to one particle: the
    particle afterwards, the screen position pushed on its history (if any),
    and whether it is spliced out of [sim.particles]. *)
Record Pass : Type := mkPass {
  after : Particle;
  pushed : option Point;
  spliced : bool
}.

(** One frame as far as a particle is concerned: the locals [offsetX], [drawW],
    [drawH] and [now] of [p.draw]. *)
Record Frame : Type := mkFrame {
  offsetX : R;
  drawW : R;
  drawH : R;
  now_ms : R
}.

(** The body of the particle loop; drawing and the spawning of splashes do not
    touch the particle and are left out.  [None] is the [TypeError] of
    [calculatePhysics]. *)
Definition draw_particle (f : Frame) (particle : Particle) : option Pass :=
  match calculatePhysics particle (now_ms f) with
  | (Throws, _) => None
  | (Null, p1) =>
      Some {| after := p1;
              pushed := None;
              spliced := isDead p1 || expired p1 (now_ms f) |}
  | (Ret state, p1) =>
      let sx := offsetX f + (x state * drawW f) in
      let sy := y state * drawH f in
      let p2 := set_history p1 (push_history (history p1) (mkPoint sx sy)) in
      let p3 := if impact state then set_history p2 [] else p2 in
      Some {| after := p3;
              pushed := Some (mkPoint sx sy);
              spliced := isDead p3 || expired p3 (now_ms f) |}
  end.



(** ** Emission, the two array loops of [p.draw], the telemetry

    [p.random] and [p.map] belong to the drawing library, not to this
    repository.  They are parameters: [rnd k lo hi] is the value of the [k]-th
    call [p.random(lo, hi)], and [pmap] is [p.map]. *)

Definition EMISSION_RATE : nat := 8.

(** The part of the [Simulation] object that emission and the particle loop
    read and write.  [currentV0] is a global of the file and is passed
    along. *)
Record Simulation : Type := mkSimulation {
  particles : list Particle;
  activeScenario : Z;
  activeAngle : R;
  isLaunching : bool
}.

Definition getCurrent (sim : Simulation) : option Config :=
  find_config (activeScenario sim).

(** The object literal pushed by [addParticles]; its four calls of [p.random]
    are made in the order of the fields. *)
Definition new_particle (rnd : nat -> R -> R -> R) (k : nat) (now : R)
  (cfg : Config) (active : Z) (angleRad currentV0 startYNorm_ : R) : Particle :=
  {| startTime := now - rnd k 0 16;
     h0 := cfg_h0 cfg;
     scenario := active;
     angle := angleRad + rnd (k + 1)%nat (-0.02) 0.02;
     velocity := currentV0 + rnd (k + 2)%nat (-0.05) 0.05;
     startXNorm := cfg_x cfg;
     startYNorm := startYNorm_;
     isDead := false;
     size := rnd (k + 3)%nat 1.2 3;
     history := [] |}.

(** [n] passes of the emission loop, [k] calls of [p.random] having been made
    before. *)
Fixpoint emit (rnd : nat -> R -> R -> R) (n k : nat) (now : R) (cfg : Config)
  (active : Z) (angleRad currentV0 startYNorm_ : R) (ps : list Particle)
  : list Particle :=
  match n with
  | O => ps
  | S m =>
      emit rnd m (k + 4)%nat now cfg active angleRad currentV0 startYNorm_
           (ps ++ [new_particle rnd k now cfg active angleRad currentV0
                                startYNorm_])
  end.

(** [addParticles].  [None] is the [TypeError] of reading [h0] of [undefined]
    when [getCurrent] finds no entry. *)
Definition addParticles (rnd : nat -> R -> R -> R) (k : nat) (now currentV0 : R)
  (sim : Simulation) : option Simulation :=
  match getCurrent sim with
  | None => None
  | Some cfg =>
      let angleRad := (activeAngle sim * PI) / 180 in
      let hScale_ := (GROUND_LINE_NORM - NOZZLE_TOP_NORM) / (1.0 - 0.25) in
      let startYNorm_ := GROUND_LINE_NORM - (cfg_h0 cfg - 0.25) * hScale_ in
      Some {| particles :=
                emit rnd EMISSION_RATE k now cfg (activeScenario sim) angleRad
                     currentV0 startYNorm_ (particles sim);
              activeScenario := activeScenario sim;
              activeAngle := activeAngle sim;
              isLaunching := isLaunching sim |}
  end.

(** What [addParticles] puts in every particle it pushes. *)
Definition emitted (sim : Simulation) (cfg : Config) (now currentV0 : R)
  (p : Particle) : Prop :=
  scenario p = activeScenario sim
  /\ h0 p = cfg_h0 cfg
  /\ startXNorm p = cfg_x cfg
  /\ startYNorm p = GROUND_LINE_NORM - (cfg_h0 cfg - 0.25) * hScale
  /\ isDead p = false
  /\ history p = []
  /\ now - 16 < startTime p <= now
  /\ Rabs (angle p - to_rad (activeAngle sim)) <= 0.02
  /\ Rabs (velocity p - currentV0) <= 0.05
  /\ 1.2 <= size p < 3.


(** [arr.splice(i, 1)] and the in-place update of the object at index [i]. *)
Definition remove_at {A : Type} (i : nat) (l : list A) : list A :=
  firstn i l ++ skipn (S i) l.

Definition set_at {A : Type} (i : nat) (a : A) (l : list A) : list A :=
  firstn i l ++ a :: skipn (S i) l.

(** The shape shared by the two loops of [p.draw],
    [for (let i = arr.length - 1; i >= 0; i--)] with a [splice(i, 1)] in the
    body: [backward_loop body i l] runs the passes for the indices [i - 1]
    down to [0].  The body answers [None] when it throws, [Some None] when it
    splices the element out and [Some (Some a')] when it leaves the element,
    as [a'], in the array.  Reading past the end of the array gives
    [undefined], on which both bodies throw. *)
Fixpoint backward_loop {A : Type} (body : A -> option (option A)) (i : nat)
  (l : list A) : option (list A) :=
  match i with
  | O => Some l
  | S j =>
      match nth_error l j with
      | None => None
      | Some a =>
          match body a with
          | None => None
          | Some None => backward_loop body j (remove_at j l)
          | Some (Some a') => backward_loop body j (set_at j a' l)
          end
      end
  end.

Definition particle_body (f : Frame) (particle : Particle)
  : option (option Particle) :=
  match draw_particle f particle with
  | None => None
  | Some pass => Some (if spliced pass then None else Some (after pass))
  end.

(** The particle loop of [p.draw] on [sim.particles]. *)
Definition particle_pass (f : Frame) (ps : list Particle)
  : option (list Particle) :=
  backward_loop (particle_body f) (length ps) ps.


Record Splash : Type := mkSplash {
  splash_x : R;
  splash_y : R;
  splash_vx : R;
  splash_vy : R;
  splash_startTime : R;
  splash_size : R;
  splash_alpha : R;
  splash_isMist : option bool;
  splash_colorOffset : option R
}.

(** The truthiness of the optional field [isMist]. *)
Definition is_mist (s : Splash) : bool :=
  match splash_isMist s with
  | Some true => true
  | _ => false
  end.

Definition maxAge_of (s : Splash) : R :=
  if is_mist s then 600 else 400.

(** The body of the splash loop, without the drawing. *)
Definition splash_body (pmap : R -> R -> R -> R -> R -> R) (now : R)
  (s : Splash) : option (option Splash) :=
  let age := now - splash_startTime s in
  let maxAge := maxAge_of s in
  if Rlt_dec maxAge age then Some None
  else
    Some (Some {| splash_x := splash_x s + splash_vx s;
                  splash_y := splash_y s + splash_vy s;
                  splash_vx := splash_vx s;
                  splash_vy := splash_vy s
                               + (if is_mist s then 0.005 else 0.025);
                  splash_startTime := splash_startTime s;
                  splash_size := splash_size s;
                  splash_alpha :=
                    pmap age 0 maxAge (if is_mist s then 100 else 180) 0;
                  splash_isMist := splash_isMist s;
                  splash_colorOffset := splash_colorOffset s |}).

(** The splash loop of [p.draw] on [sim.splashes]. *)
Definition splash_pass (pmap : R -> R -> R -> R -> R -> R) (now : R)
  (ss : list Splash) : option (list Splash) :=
  backward_loop (splash_body pmap now) (length ss) ss.

(** [Math.round]: the integer part of [r + 0.5]. *)
Definition Math_round (r : R) : Z := Int_part (r + 0.5).

(** The efficiency shown by [updateTelemetry] for the active scenario and
    angle.  The outer [None] is a result of the solver that is not finite, the
    division by a speed [currentV0 = 0] gives no finite number either. *)
Definition updateTelemetry (sim : Simulation) (currentV0 : R)
  : option (PhysicsResult * Z) :=
  match solveScenario (activeScenario sim) (activeAngle sim) currentV0 with
  | None => None
  | Some target =>
      if Req_dec_T currentV0 0 then None
      else Some (target, Math_round ((vFinal target / currentV0) * 100))
  end.

(** What the particle loop leaves of a list of particles, written without an
    index: the particles that are not spliced out, each as its pass leaves it,
    in their order. *)
Fixpoint kept {A : Type} (body : A -> option (option A)) (l : list A)
  : option (list A) :=
  match l with
  | [] => Some []
  | a :: rest =>
      match body a, kept body rest with
      | Some None, Some rest' => Some rest'
      | Some (Some a'), Some rest' => Some (a' :: rest')
      | _, _ => None
      end
  end.

(** ** Basic facts *)

Lemma beta_pos : 0 < beta.
Proof. unfold beta; lra. Qed.

Lemma g_pos : 0 < g.
Proof. unfold g; lra. Qed.

Lemma BETA_beta : BETA = beta.
Proof. reflexivity. Qed.

Lemma G_g : G = g.
Proof. reflexivity. Qed.

(** Field equations over the decimal constants of the source; the side
    conditions left are that a literal is not zero. *)
Ltac field_consts :=
  unfold beta, g, BETA, G; unfold Q2R;
  cbn [QArith_base.Qnum QArith_base.Qden];
  field; repeat split; first [assumption | lra].

(** ** The height equation is concave

    [y_at] lies below each of its tangents; this is all the analysis the Newton
    loop needs. *)

Section Tangent.

Variables hs vy0 : R.
Hypothesis lift_pos : 0 < vy0 + g / beta.

Lemma exp_split (s t : R) :
  exp (- beta * t) = exp (- beta * s) * exp (- beta * (t - s)).
Proof.
  rewrite <- exp_plus. f_equal. ring.
Qed.

Lemma tangent_gap (s t : R) :
  y_at hs vy0 s + vy_at vy0 s * (t - s) - y_at hs vy0 t
  = (vy0 + g / beta) / beta * exp (- beta * s)
    * (exp (- beta * (t - s)) - (1 + - beta * (t - s))).
Proof.
  unfold y_at, vy_at. rewrite (exp_split s t). field_consts.
Qed.

Lemma tangent_above (s t : R) :
  y_at hs vy0 t <= y_at hs vy0 s + vy_at vy0 s * (t - s).
Proof.
  pose proof (tangent_gap s t) as Hgap.
  assert (Hpos : 0 <= (vy0 + g / beta) / beta * exp (- beta * s)
                      * (exp (- beta * (t - s)) - (1 + - beta * (t - s)))).
  { apply Rmult_le_pos.
    - apply Rmult_le_pos.
      + apply Rlt_le, Rdiv_lt_0_compat; [exact lift_pos | exact beta_pos].
      + apply Rlt_le, exp_pos.
    - pose proof (exp_ineq1_le (- beta * (t - s))). lra. }
  lra.
Qed.

Lemma tangent_above_strict (s t : R) :
  s <> t -> y_at hs vy0 t < y_at hs vy0 s + vy_at vy0 s * (t - s).
Proof.
  intros Hne. pose proof (tangent_gap s t) as Hgap.
  assert (Hpos : 0 < (vy0 + g / beta) / beta * exp (- beta * s)
                     * (exp (- beta * (t - s)) - (1 + - beta * (t - s)))).
  { apply Rmult_lt_0_compat.
    - apply Rmult_lt_0_compat.
      + apply Rdiv_lt_0_compat; [exact lift_pos | exact beta_pos].
      + apply exp_pos.
    - assert (Hu : - beta * (t - s) <> 0).
      { pose proof beta_pos. intro H0.
        apply Rmult_integral in H0. destruct H0; lra. }
      pose proof (exp_ineq1 _ Hu). lra. }
  lra.
Qed.

Lemma y_at_0 : y_at hs vy0 0 = hs.
Proof.
  unfold y_at. replace (- beta * 0) with 0 by ring. rewrite exp_0.
  field_consts.
Qed.

End Tangent.

(** ** Where the Newton loop goes

    For an upward launch ([0 < vy0]) from a height [0 <= hs] the height
    equation has one root at or before [t = 0] and one after the apex.  A step
    taken where the droplet falls ([vy_t < 0]) lands at or after the later
    root, a step taken where it rises ([0 < vy_t]) lands before [t = 0]; in
    both cases the loop then stays on that side. *)

Section Newton.

Variables hs vy0 : R.
Hypothesis hs_nonneg : 0 <= hs.
Hypothesis vy0_pos : 0 < vy0.

Lemma lift_pos_of_launch : 0 < vy0 + g / beta.
Proof.
  assert (0 < g / beta) by (apply Rdiv_lt_0_compat; [apply g_pos | apply beta_pos]).
  lra.
Qed.

Lemma tangent_at_origin (t : R) :
  t <> 0 -> hs < y_at hs vy0 t - t * vy_at vy0 t.
Proof.
  intros Ht.
  pose proof (tangent_above_strict hs vy0 lift_pos_of_launch t 0 Ht) as H.
  rewrite y_at_0 in H. lra.
Qed.

Lemma slope_sign (t : R) :
  t <> 0 -> y_at hs vy0 t <= 0 -> t * vy_at vy0 t < 0.
Proof.
  intros Ht Hy. pose proof (tangent_at_origin t Ht). lra.
Qed.

Lemma step_lands_below (t : R) :
  vy_at vy0 t <> 0 ->
  y_at hs vy0 (t - y_at hs vy0 t / vy_at vy0 t) <= 0.
Proof.
  intros Hv.
  pose proof (tangent_above hs vy0 lift_pos_of_launch t
                (t - y_at hs vy0 t / vy_at vy0 t)) as H.
  replace (y_at hs vy0 t
           + vy_at vy0 t * (t - y_at hs vy0 t / vy_at vy0 t - t))
    with 0 in H by (field; exact Hv).
  exact H.
Qed.

Lemma step_falling (t : R) :
  t <> 0 -> vy_at vy0 t < 0 ->
  exists t', newton_step hs vy0 t = Some t'
             /\ 0 < t' /\ y_at hs vy0 t' <= 0.
Proof.
  intros Ht Hv. unfold newton_step.
  destruct (Req_dec_T (vy_at vy0 t) 0) as [E | N]; [lra |].
  eexists; split; [reflexivity |]. split.
  - pose proof (tangent_at_origin t Ht) as H0.
    assert (Hinv : 0 < - / vy_at vy0 t).
    { apply Ropp_0_gt_lt_contravar, Rinv_lt_0_compat, Hv. }
    replace (t - y_at hs vy0 t / vy_at vy0 t)
      with ((y_at hs vy0 t - t * vy_at vy0 t) * - / vy_at vy0 t)
      by (field; exact N).
    apply Rmult_lt_0_compat; lra.
  - apply step_lands_below, N.
Qed.

Lemma step_rising (t : R) :
  t <> 0 -> 0 < vy_at vy0 t ->
  exists t', newton_step hs vy0 t = Some t'
             /\ t' < 0 /\ y_at hs vy0 t' <= 0.
Proof.
  intros Ht Hv. unfold newton_step.
  destruct (Req_dec_T (vy_at vy0 t) 0) as [E | N]; [lra |].
  eexists; split; [reflexivity |]. split.
  - pose proof (tangent_at_origin t Ht) as H0.
    assert (Hinv : 0 < / vy_at vy0 t) by (apply Rinv_0_lt_compat, Hv).
    assert (Hprod : 0 < (y_at hs vy0 t - t * vy_at vy0 t) * / vy_at vy0 t)
      by (apply Rmult_lt_0_compat; lra).
    replace (t - y_at hs vy0 t / vy_at vy0 t)
      with (- ((y_at hs vy0 t - t * vy_at vy0 t) * / vy_at vy0 t))
      by (field; exact N).
    lra.
  - apply step_lands_below, N.
Qed.

Lemma falling_after_root (t : R) :
  0 < t -> y_at hs vy0 t <= 0 -> vy_at vy0 t < 0.
Proof.
  intros Ht Hy.
  assert (Hs : t * vy_at vy0 t < 0) by (apply slope_sign; lra).
  destruct (Rlt_dec (vy_at vy0 t) 0) as [L | NL]; [exact L |].
  assert (0 <= t * vy_at vy0 t) by (apply Rmult_le_pos; lra). lra.
Qed.

Lemma rising_before_origin (t : R) :
  t < 0 -> y_at hs vy0 t <= 0 -> 0 < vy_at vy0 t.
Proof.
  intros Ht Hy.
  assert (Hs : t * vy_at vy0 t < 0) by (apply slope_sign; lra).
  destruct (Rlt_dec 0 (vy_at vy0 t)) as [L | NL]; [exact L |].
  assert (0 <= (- t) * (- vy_at vy0 t)) by (apply Rmult_le_pos; lra). lra.
Qed.


Lemma loop_stays_after_root (n : nat) :
  forall t, 0 < t -> y_at hs vy0 t <= 0 ->
  exists t', newton_loop n hs vy0 t = Some t'
             /\ 0 < t' /\ y_at hs vy0 t' <= 0.
Proof.
  induction n as [| n IH]; intros t Ht Hy.
  - exists t. simpl. auto.
  - destruct (step_falling t) as (t1 & E1 & P1 & Y1);
      [lra | apply falling_after_root; assumption |].
    simpl. rewrite E1. apply IH; assumption.
Qed.

Lemma loop_stays_before_origin (n : nat) :
  forall t, t < 0 -> y_at hs vy0 t <= 0 ->
  exists t', newton_loop n hs vy0 t = Some t'
             /\ t' < 0 /\ y_at hs vy0 t' <= 0.
Proof.
  induction n as [| n IH]; intros t Ht Hy.
  - exists t. simpl. auto.
  - destruct (step_rising t) as (t1 & E1 & P1 & Y1);
      [lra | apply rising_before_origin; assumption |].
    simpl. rewrite E1. apply IH; assumption.
Qed.

(** A seed after the apex: every later estimate is positive and at or after
    the landing time. *)
Lemma loop_from_falling_seed (n : nat) (t0 : R) :
  t0 <> 0 -> vy_at vy0 t0 < 0 ->
  exists t, newton_loop (S n) hs vy0 t0 = Some t
            /\ 0 < t /\ y_at hs vy0 t <= 0.
Proof.
  intros H0 Hv.
  destruct (step_falling t0 H0 Hv) as (t1 & E1 & P1 & Y1).
  simpl. rewrite E1. apply loop_stays_after_root; assumption.
Qed.

(** A seed before the apex: every later estimate is negative. *)
Lemma loop_from_rising_seed (n : nat) (t0 : R) :
  t0 <> 0 -> 0 < vy_at vy0 t0 ->
  exists t, newton_loop (S n) hs vy0 t0 = Some t
            /\ t < 0 /\ y_at hs vy0 t <= 0.
Proof.
  intros H0 Hv.
  destruct (step_rising t0 H0 Hv) as (t1 & E1 & P1 & Y1).
  simpl. rewrite E1. apply loop_stays_before_origin; assumption.
Qed.

End Newton.

(** ** Angles and bounds on [exp] and [sqrt] *)

Lemma to_rad_acute (angleDeg : R) :
  0 < angleDeg < 90 -> 0 < to_rad angleDeg < PI / 2.
Proof.
  intros [Hlo Hhi]. unfold to_rad. pose proof PI_RGT_0 as Hpi.
  split.
  - apply Rdiv_lt_0_compat; [apply Rmult_lt_0_compat; lra | lra].
  - assert (angleDeg * PI < 90 * PI) by (apply Rmult_lt_compat_r; lra). lra.
Qed.

Lemma sin_acute (angleDeg : R) : 0 < angleDeg < 90 -> 0 < sin (to_rad angleDeg).
Proof.
  intros H. destruct (to_rad_acute _ H). pose proof PI_RGT_0.
  apply sin_gt_0; lra.
Qed.


Lemma to_rad_30 : to_rad 30 = PI / 6.
Proof. unfold to_rad. field. Qed.

Lemma to_rad_45 : to_rad 45 = PI / 4.
Proof. unfold to_rad. field. Qed.


Lemma sqrt_between (a lo hi : R) :
  0 <= lo -> lo * lo < a -> a < hi * hi -> 0 <= hi -> lo < sqrt a < hi.
Proof.
  intros Hlo Hla Hah Hhi.
  assert (Hsq : sqrt a * sqrt a = a).
  { apply sqrt_sqrt. pose proof (Rle_0_sqr lo) as H. unfold Rsqr in H. lra. }
  pose proof (sqrt_pos a) as Hs.
  split.
  - destruct (Rlt_dec lo (sqrt a)) as [L | NL]; [exact L |].
    assert (sqrt a * sqrt a <= lo * lo) by (apply Rmult_le_compat; lra). lra.
  - destruct (Rlt_dec (sqrt a) hi) as [L | NL]; [exact L |].
    assert (hi * hi <= sqrt a * sqrt a) by (apply Rmult_le_compat; lra). lra.
Qed.

Lemma sqrt2_bounds : 1.41 < sqrt 2 < 1.42.
Proof. apply sqrt_between; lra. Qed.


Lemma exp_neg_cancel (u : R) : exp (- u) * exp u = 1.
Proof. rewrite <- exp_plus. replace (- u + u) with 0 by ring. apply exp_0. Qed.

(** [exp (- u) <= 1 / (1 + u)] for [0 <= u], without a division. *)
Lemma exp_neg_upper (u : R) : 0 <= u -> exp (- u) * (1 + u) <= 1.
Proof.
  intros Hu. pose proof (exp_neg_cancel u) as Hc.
  pose proof (exp_ineq1_le u) as Hl. pose proof (exp_pos (- u)) as Hp.
  assert (exp (- u) * (1 + u) <= exp (- u) * exp u)
    by (apply Rmult_le_compat_l; lra).
  lra.
Qed.

(** [exp u <= 1 / (1 - u)], without a division. *)
Lemma exp_upper (u : R) : (1 - u) * exp u <= 1.
Proof.
  pose proof (exp_neg_cancel u) as Hc.
  pose proof (exp_ineq1_le (- u)) as Hl. pose proof (exp_pos u) as Hp.
  assert ((1 - u) * exp u <= exp (- u) * exp u)
    by (apply Rmult_le_compat_r; lra).
  lra.
Qed.

(** [(1 - u) ^ 4 <= exp (- 4 u)]: the tangent bound applied to a quarter of
    the exponent. *)
Lemma exp_neg_lower4 (u : R) :
  0 <= u <= 1 -> (1 - u) * (1 - u) * ((1 - u) * (1 - u)) <= exp (- (4 * u)).
Proof.
  intros [H0 H1].
  replace (- (4 * u)) with ((- u + - u) + (- u + - u)) by ring.
  rewrite !exp_plus.
  pose proof (exp_ineq1_le (- u)) as Hl.
  assert (Hsq : (1 - u) * (1 - u) <= exp (- u) * exp (- u))
    by (apply Rmult_le_compat; lra).
  apply Rmult_le_compat; try exact Hsq;
    apply Rmult_le_pos; lra.
Qed.

(** The droplet is already falling at the seed when its launch speed upwards is
    below [g * seed]. *)
Lemma seed_after_apex (vy0 t0 : R) :
  0 <= t0 -> 0 < vy0 -> vy0 < g * t0 -> vy_at vy0 t0 < 0.
Proof.
  intros Ht Hv Hlt. unfold vy_at.
  pose proof (exp_neg_upper (beta * t0)) as Hu.
  pose proof (exp_pos (- beta * t0)) as Hp.
  replace (- (beta * t0)) with (- beta * t0) in Hu by ring.
  assert (Hbt : 0 <= beta * t0) by (apply Rmult_le_pos; [apply Rlt_le, beta_pos | exact Ht]).
  specialize (Hu Hbt).
  set (E := exp (- beta * t0)) in *.
  assert (HE : E * (beta * t0) <= 1 - E) by lra.
  assert (Hc : g / beta = g * / beta) by reflexivity.
  unfold g, beta in *.
  assert (H1 : vy0 * E < 9.81 * t0 * E) by (apply Rmult_lt_compat_r; lra).
  lra.
Qed.

(** ** The solver, regime by regime *)

Lemma solveScenario_no_drag (angleDeg v0 : R) :
  solveScenario 1 angleDeg v0
  = Some {| range := v0 * cos (to_rad angleDeg)
                     * ((2 * (v0 * sin (to_rad angleDeg))) / g);
            height := (v0 * sin (to_rad angleDeg) * (v0 * sin (to_rad angleDeg)))
                      / (2 * g);
            time := (2 * (v0 * sin (to_rad angleDeg))) / g;
            vFinal := v0 |}.
Proof. reflexivity. Qed.

Lemma solveScenario_drag (scenarioId : Z) (angleDeg v0 t : R) :
  scenarioId <> 1%Z ->
  newton_loop 15 (solver_h0 scenarioId) (v0 * sin (to_rad angleDeg))
              (solver_seed scenarioId) = Some t ->
  solveScenario scenarioId angleDeg v0
  = Some {| range := (v0 * cos (to_rad angleDeg) / beta)
                     * (1 - exp (- beta * t));
            height := maxHeight_of (solver_h0 scenarioId)
                                   (v0 * sin (to_rad angleDeg));
            time := t;
            vFinal :=
              sqrt ((v0 * cos (to_rad angleDeg) * exp (- beta * t)) ^ 2
                    + ((v0 * sin (to_rad angleDeg) + g / beta)
                       * exp (- beta * t) - g / beta) ^ 2) |}.
Proof.
  intros Hid Hloop. unfold solveScenario.
  destruct (Z.eqb_spec scenarioId 1) as [E | _]; [contradiction |].
  unfold to_rad in Hloop. rewrite Hloop. reflexivity.
Qed.

Lemma solveScenario_drag_none (scenarioId : Z) (angleDeg v0 : R) :
  scenarioId <> 1%Z ->
  newton_loop 15 (solver_h0 scenarioId) (v0 * sin (to_rad angleDeg))
              (solver_seed scenarioId) = None ->
  solveScenario scenarioId angleDeg v0 = None.
Proof.
  intros Hid Hloop. unfold solveScenario.
  destruct (Z.eqb_spec scenarioId 1) as [E | _]; [contradiction |].
  unfold to_rad in Hloop. rewrite Hloop. reflexivity.
Qed.

Lemma solver_h0_nonneg (scenarioId : Z) : 0 <= solver_h0 scenarioId.
Proof. unfold solver_h0. destruct (scenarioId =? 3)%Z; lra. Qed.

Lemma solver_seed_pos (scenarioId : Z) : 0 < solver_seed scenarioId.
Proof. unfold solver_seed. destruct (scenarioId =? 3)%Z; lra. Qed.




(** The launch at the solver's seed, under the preconditions of the claims. *)
Lemma drag_loop_after_root (scenarioId : Z) (angleDeg v0 : R) :
  0 < angleDeg < 90 ->
  0 < v0 ->
  vy_at (v0 * sin (to_rad angleDeg)) (solver_seed scenarioId) < 0 ->
  exists t,
    newton_loop 15 (solver_h0 scenarioId) (v0 * sin (to_rad angleDeg))
                (solver_seed scenarioId) = Some t
    /\ 0 < t
    /\ y_at (solver_h0 scenarioId) (v0 * sin (to_rad angleDeg)) t <= 0.
Proof.
  intros Hang Hv Hseed.
  pose proof (sin_acute _ Hang) as Hsin.
  assert (Hvy : 0 < v0 * sin (to_rad angleDeg)) by (apply Rmult_lt_0_compat; assumption).
  apply (loop_from_falling_seed (solver_h0 scenarioId)
           (v0 * sin (to_rad angleDeg)) (solver_h0_nonneg _) Hvy 14).
  - pose proof (solver_seed_pos scenarioId). lra.
  - exact Hseed.
Qed.

Lemma drag_loop_before_origin (scenarioId : Z) (angleDeg v0 : R) :
  0 < angleDeg < 90 ->
  0 < v0 ->
  0 < vy_at (v0 * sin (to_rad angleDeg)) (solver_seed scenarioId) ->
  exists t,
    newton_loop 15 (solver_h0 scenarioId) (v0 * sin (to_rad angleDeg))
                (solver_seed scenarioId) = Some t
    /\ t < 0
    /\ y_at (solver_h0 scenarioId) (v0 * sin (to_rad angleDeg)) t <= 0.
Proof.
  intros Hang Hv Hseed.
  pose proof (sin_acute _ Hang) as Hsin.
  assert (Hvy : 0 < v0 * sin (to_rad angleDeg)) by (apply Rmult_lt_0_compat; assumption).
  apply (loop_from_rising_seed (solver_h0 scenarioId)
           (v0 * sin (to_rad angleDeg)) (solver_h0_nonneg _) Hvy 14).
  - pose proof (solver_seed_pos scenarioId). lra.
  - exact Hseed.
Qed.

Lemma seed_falls_30_2p5 (scenarioId : Z) :
  vy_at (2.5 * sin (to_rad 30)) (solver_seed scenarioId) < 0.
Proof.
  rewrite to_rad_30, sin_PI6.
  apply seed_after_apex; unfold solver_seed, g;
    destruct (scenarioId =? 3)%Z; lra.
Qed.




(** ** Claims about the solver *)

(** C5.  In scenario 1 the solver returns, for every angle and every speed, the
    no-drag closed forms: [time = 2 v0 sin(theta) / g],
    [range = v0 cos(theta) * time], [height = (v0 sin(theta))^2 / (2 g)] and
    [vFinal = v0] exactly. *)
Theorem no_drag_closed_forms (angleDeg v0 : R) :
  exists r,
    solveScenario 1 angleDeg v0 = Some r
    /\ time r = 2 * v0 * sin (to_rad angleDeg) / g
    /\ range r = v0 * cos (to_rad angleDeg) * time r
    /\ height r = (v0 * sin (to_rad angleDeg)) ^ 2 / (2 * g)
    /\ vFinal r = v0.
Proof.
  eexists. split; [apply solveScenario_no_drag |]. simpl.
  repeat split; field_consts.
Qed.

(** C10.  The solver does not validate the scenario identifier: every
    identifier other than 1 is computed by the linear-drag branch, and every
    identifier other than 1 and 3 uses launch height 0 and seed 0.36, so that
    its result is the result of scenario 2. *)
Theorem unknown_scenario_is_scenario_2 (scenarioId : Z) (angleDeg v0 : R) :
  scenarioId <> 1%Z ->
  solveScenario scenarioId angleDeg v0
  = match newton_loop 15 (solver_h0 scenarioId) (v0 * sin (to_rad angleDeg))
                      (solver_seed scenarioId) with
    | None => None
    | Some t =>
        Some {| range := (v0 * cos (to_rad angleDeg) / beta)
                         * (1 - exp (- beta * t));
                height := maxHeight_of (solver_h0 scenarioId)
                                       (v0 * sin (to_rad angleDeg));
                time := t;
                vFinal :=
                  sqrt ((v0 * cos (to_rad angleDeg) * exp (- beta * t)) ^ 2
                        + ((v0 * sin (to_rad angleDeg) + g / beta)
                           * exp (- beta * t) - g / beta) ^ 2) |}
    end
  /\ (scenarioId <> 3%Z ->
      solver_h0 scenarioId = 0 /\ solver_seed scenarioId = 0.36
      /\ solveScenario scenarioId angleDeg v0 = solveScenario 2 angleDeg v0).
Proof.
  intros H1. split.
  - destruct (newton_loop 15 (solver_h0 scenarioId)
                (v0 * sin (to_rad angleDeg)) (solver_seed scenarioId)) as [t |] eqn:E.
    + apply solveScenario_drag; assumption.
    + apply solveScenario_drag_none; assumption.
  - intros H3. unfold solveScenario, solver_h0, solver_seed.
    destruct (Z.eqb_spec scenarioId 1) as [? | _]; [contradiction |].
    destruct (Z.eqb_spec scenarioId 3) as [? | _]; [contradiction |].
    repeat split; try lra.
Qed.

Lemma unknown_scenario_is_scenario_2_witness :
  solveScenario 0 45 5 = solveScenario 2 45 5
  /\ solveScenario 4 45 5 = solveScenario 2 45 5.
Proof.
  split.
  - apply (unknown_scenario_is_scenario_2 0 45 5); discriminate.
  - apply (unknown_scenario_is_scenario_2 4 45 5); discriminate.
Defined.








Lemma sin_45_value : sin (to_rad 45) = sqrt 2 / 2.
Proof.
  rewrite to_rad_45, sin_PI4.
  pose proof sqrt2_bounds as [Hlo _].
  assert (Hsq : sqrt 2 * sqrt 2 = 2) by (apply sqrt_sqrt; lra).
  replace (sqrt 2 / 2) with (sqrt 2 / (sqrt 2 * sqrt 2)) by (rewrite Hsq; reflexivity).
  field. lra.
Qed.

Lemma cos_45_value : cos (to_rad 45) = sqrt 2 / 2.
Proof.
  rewrite to_rad_45, cos_PI4.
  pose proof sqrt2_bounds as [Hlo _].
  assert (Hsq : sqrt 2 * sqrt 2 = 2) by (apply sqrt_sqrt; lra).
  replace (sqrt 2 / 2) with (sqrt 2 / (sqrt 2 * sqrt 2)) by (rewrite Hsq; reflexivity).
  field. lra.
Qed.

(** The result of [solveScenario(1, 45, 5)], with [sqrt 2] left symbolic. *)
Lemma solve_1_45_5_value :
  solveScenario 1 45 5
  = Some {| range := 5 * (sqrt 2 / 2) * ((2 * (5 * (sqrt 2 / 2))) / g);
            height := (5 * (sqrt 2 / 2) * (5 * (sqrt 2 / 2))) / (2 * g);
            time := (2 * (5 * (sqrt 2 / 2))) / g;
            vFinal := 5 |}.
Proof.
  rewrite solveScenario_no_drag, sin_45_value, cos_45_value. reflexivity.
Qed.

Lemma range_1_45_5 :
  5 * (sqrt 2 / 2) * ((2 * (5 * (sqrt 2 / 2))) / g) = 25 / g.
Proof.
  assert (Hsq : sqrt 2 * sqrt 2 = 2) by (apply sqrt_sqrt; lra).
  replace (5 * (sqrt 2 / 2) * ((2 * (5 * (sqrt 2 / 2))) / g))
    with (25 * (sqrt 2 * sqrt 2) / (2 * g)) by field_consts.
  rewrite Hsq. field_consts.
Qed.

(** C4, as the code has it.  [solveScenario(1, 45, 5)] returns [time] within
    0.01 of 0.72, [range] within 0.01 of 2.55 (it is [25 / g]), [height] within
    0.01 of 0.64 and [vFinal = 5]. *)
Theorem solve_1_45_5 :
  exists r,
    solveScenario 1 45 5 = Some r
    /\ Rabs (time r - 0.72) <= 0.01
    /\ Rabs (range r - 2.55) <= 0.01
    /\ Rabs (height r - 0.64) <= 0.01
    /\ vFinal r = 5.
Proof.
  eexists. split; [apply solve_1_45_5_value |]. simpl.
  pose proof sqrt2_bounds as [Hlo Hhi].
  assert (Hsq : sqrt 2 * sqrt 2 = 2) by (apply sqrt_sqrt; lra).
  split; [| split; [| split; [| reflexivity]]].
  - apply Rabs_le. unfold g. lra.
  - rewrite range_1_45_5. apply Rabs_le. unfold g. lra.
  - replace (5 * (sqrt 2 / 2) * (5 * (sqrt 2 / 2)) / (2 * g))
      with (25 * (sqrt 2 * sqrt 2) / (8 * g)) by field_consts.
    rewrite Hsq. apply Rabs_le. unfold g. lra.
Qed.

(** C4 fails as stated: the range of [solveScenario(1, 45, 5)] is [25 / g],
    about 2.55, which is not within 0.01 of 1.80. *)
Lemma range_1_45_5_is_not_1p80 :
  exists r,
    solveScenario 1 45 5 = Some r
    /\ range r = 25 / g
    /\ ~ Rabs (range r - 1.80) <= 0.01.
Proof.
  eexists. split; [apply solve_1_45_5_value |]. simpl.
  rewrite range_1_45_5. split; [reflexivity |].
  rewrite Rabs_pos_eq; unfold g; lra.
Qed.

Lemma ln_outside_domain (u : R) : u <= 0 -> ln u = 0.
Proof.
  intros Hu. unfold ln.
  destruct (Rlt_dec 0 u) as [Hpos | _]; [exfalso; lra | reflexivity].
Qed.

(** The branch [tApex > 0] of the solver is taken exactly when the launch goes
    upwards. *)
Lemma tApex_positive_iff (vy0 : R) : 0 < tApex_of vy0 <-> 0 < vy0.
Proof.
  pose proof beta_pos as Hb. pose proof g_pos as Hg.
  assert (Hib : 0 < 1 / beta) by (apply Rdiv_lt_0_compat; lra).
  unfold tApex_of. split.
  - intros Hap.
    destruct (Rlt_dec 0 vy0) as [Hv | Hv]; [exact Hv | exfalso].
    assert (Hln : 0 <= ln (g / (g + beta * vy0))).
    { destruct (Rlt_dec 0 (g + beta * vy0)) as [Hs | Hs].
      - assert (Hle : beta * vy0 <= 0).
        { assert (0 <= beta * - vy0) by (apply Rmult_le_pos; lra). lra. }
        destruct (Req_dec_T (g + beta * vy0) g) as [E | N].
        + rewrite E. unfold Rdiv. rewrite Rinv_r by lra. rewrite ln_1. lra.
        + rewrite <- ln_1. apply Rlt_le, ln_increasing; [lra |].
          apply Rmult_lt_reg_r with (g + beta * vy0); [exact Hs |].
          unfold Rdiv. rewrite Rmult_assoc, Rinv_l by lra. lra.
      - rewrite ln_outside_domain; [lra |].
        destruct (Req_dec_T (g + beta * vy0) 0) as [E | N].
        + rewrite E. unfold Rdiv. rewrite Rinv_0. lra.
        + assert (Hinv : / (g + beta * vy0) < 0)
            by (apply Rinv_lt_0_compat; lra).
          unfold Rdiv.
          assert (0 <= g * - / (g + beta * vy0)) by (apply Rmult_le_pos; lra).
          lra. }
    assert (0 <= 1 / beta * ln (g / (g + beta * vy0)))
      by (apply Rmult_le_pos; lra).
    lra.
  - intros Hv.
    assert (Hsum : g < g + beta * vy0).
    { assert (0 < beta * vy0) by (apply Rmult_lt_0_compat; assumption). lra. }
    assert (Hln : ln (g / (g + beta * vy0)) < 0).
    { rewrite <- ln_1. apply ln_increasing.
      - apply Rdiv_lt_0_compat; lra.
      - apply Rmult_lt_reg_r with (g + beta * vy0); [lra |].
        unfold Rdiv. rewrite Rmult_assoc, Rinv_l by lra. lra. }
    assert (0 < 1 / beta * - ln (g / (g + beta * vy0)))
      by (apply Rmult_lt_0_compat; lra).
    lra.
Qed.

(** The apex height of the drag regime for an upward launch, in closed form. *)
Lemma maxHeight_closed (hs vy0 : R) :
  0 < vy0 ->
  maxHeight_of hs vy0
  = hs + vy0 / beta - g / (beta * beta) * (ln (g + beta * vy0) - ln g).
Proof.
  intros Hv. pose proof beta_pos as Hb. pose proof g_pos as Hg.
  assert (Hsum : g < g + beta * vy0).
  { assert (0 < beta * vy0) by (apply Rmult_lt_0_compat; assumption). lra. }
  assert (Hq : 0 < g / (g + beta * vy0)) by (apply Rdiv_lt_0_compat; lra).
  assert (Hln : ln (g / (g + beta * vy0)) = ln g - ln (g + beta * vy0)).
  { unfold Rdiv. rewrite ln_mult; [| lra | apply Rinv_0_lt_compat; lra].
    rewrite ln_Rinv by lra. ring. }
  unfold maxHeight_of.
  assert (Hap : 0 < tApex_of vy0) by (apply tApex_positive_iff, Hv).
  destruct (Rlt_dec 0 (tApex_of vy0)) as [_ | N]; [| contradiction].
  assert (Hexp : exp (- beta * tApex_of vy0) = g / (g + beta * vy0)).
  { unfold tApex_of.
    replace (- beta * (- (1 / beta) * ln (g / (g + beta * vy0))))
      with (ln (g / (g + beta * vy0))) by (field; lra).
    apply exp_ln, Hq. }
  rewrite Hexp. unfold tApex_of. rewrite Hln. field. lra.
Qed.







(** ** The evaluator, branch by branch *)







(** ** The evaluator at the solver's time *)








(** ** The trail of a particle in [p.draw] *)

Lemma tl_is_skipn (l : list Point) : tl l = skipn 1 l.
Proof. destruct l; reflexivity. Qed.




(** On overflow the oldest entry goes and the new one comes last. *)
Lemma push_history_overflow (h : list Point) (pt : Point) :
  length h = TRAIL_LENGTH -> push_history h pt = tl h ++ [pt].
Proof.
  intros Hlen. unfold push_history. rewrite length_app, Hlen. simpl.
  destruct h; [discriminate | reflexivity].
Qed.

Lemma calculatePhysics_keeps_history
  (particle p1 : Particle) (now : R) (o : Outcome) :
  calculatePhysics particle now = (o, p1) ->
  history p1 = history particle
  /\ (isDead particle = true -> isDead p1 = true)
  /\ (forall s, o = Ret s -> impact s = true -> isDead p1 = true)
  /\ (forall s, o = Ret s -> impact s = false -> p1 = particle)
  /\ (o = Null -> p1 = particle).
Proof.
  unfold calculatePhysics. intros H.
  destruct (Rlt_dec (elapsed particle now) 0).
  { injection H as <- <-. repeat split; auto; intros; discriminate. }
  destruct (find_config (scenario particle)).
  2:{ injection H as <- <-. repeat split; auto; intros; discriminate. }
  destruct (Rle_dec _ 0.45); [destruct (Rlt_dec _ 0) |];
    injection H as <- <-; repeat split; auto;
    try (intros; discriminate);
    try (intros s Hs Hi; injection Hs as <-; simpl in Hi; discriminate).
Qed.





(** ** Further facts: a fast launch in scenario 3, a flat launch in scenario 1 *)

(** In scenario 3 a fast launch (30 m/s at 30 degrees) sends the loop to the
    root of the height equation that lies before the launch: [time] is at most
    -0.05 s. *)
Lemma seed_before_apex_30_30 : 0 < vy_at (30 * sin (to_rad 30)) (solver_seed 3).
Proof.
  rewrite to_rad_30, sin_PI6. unfold vy_at.
  change (solver_seed 3) with 0.65.
  replace (- beta * 0.65) with (- (4 * 0.24375)) by (unfold beta; lra).
  pose proof (exp_neg_lower4 0.24375) as Hl.
  assert (H01 : 0 <= 0.24375 <= 1) by lra. specialize (Hl H01).
  set (E := exp (- (4 * 0.24375))) in *.
  assert (HE : 0.327 <= E) by lra.
  assert (Hc : g / beta = 6.54) by (unfold g, beta; lra).
  rewrite Hc. lra.
Qed.

Lemma time_negative_scenario_3_at_30_mps :
  exists r, solveScenario 3 30 30 = Some r /\ time r <= - 0.05.
Proof.
  assert (Hang : 0 < 30 < 90) by lra.
  destruct (drag_loop_before_origin 3 30 30 Hang) as (t & Et & Pt & Yt);
    [lra | apply seed_before_apex_30_30 |].
  eexists. split; [apply solveScenario_drag; [discriminate | exact Et] |].
  simpl time.
  rewrite to_rad_30, sin_PI6 in Yt.
  change (solver_h0 3) with 1.0 in Yt.
  assert (Hvy : 0 < 30 * (1 / 2)) by lra.
  assert (Hh : 0 <= 1.0) by lra.
  pose proof (rising_before_origin 1.0 _ Hh Hvy t Pt Yt) as Hrise.
  destruct (Rle_dec t (- 0.05)) as [Hle | Hgt]; [exact Hle | exfalso].
  pose proof (tangent_above 1.0 _ (lift_pos_of_launch _ Hvy) t (- 0.05)) as Htan.
  assert (Hneg : vy_at (30 * (1 / 2)) t * (- 0.05 - t) <= 0).
  { assert (0 <= vy_at (30 * (1 / 2)) t * (t - - 0.05))
      by (apply Rmult_le_pos; lra).
    lra. }
  assert (Hpos : 0 < y_at 1.0 (30 * (1 / 2)) (- 0.05)).
  { unfold y_at.
    replace (- beta * - 0.05) with 0.075 by (unfold beta; lra).
    pose proof (exp_upper 0.075) as Hup.
    unfold g, beta. lra. }
  lra.
Qed.

(** At 0 degrees nothing grows with the speed in scenario 1: [height] and
    [range] are 0 for every speed. *)
Lemma no_drag_flat_at_angle_0 (v0 : R) :
  exists r, solveScenario 1 0 v0 = Some r /\ height r = 0 /\ range r = 0.
Proof.
  eexists. split; [apply solveScenario_no_drag |]. simpl.
  replace (to_rad 0) with 0 by (unfold to_rad; field).
  rewrite sin_0. split; field_consts.
Qed.

(** ** More on the evaluator *)


Lemma find_config_none (s : Z) :
  find_config s = None <-> s <> 1%Z /\ s <> 2%Z /\ s <> 3%Z.
Proof.
  unfold find_config, configs. cbn [find cfg_id].
  destruct (Z.eqb_spec 1 s) as [E1 | N1];
    [split; [discriminate | intros (C & _); congruence] |].
  destruct (Z.eqb_spec 2 s) as [E2 | N2];
    [split; [discriminate | intros (_ & C & _); congruence] |].
  destruct (Z.eqb_spec 3 s) as [E3 | N3];
    [split; [discriminate | intros (_ & _ & C); congruence] |].
  split; [intros _; repeat split; congruence | reflexivity].
Qed.

Lemma elapsed_negative (particle : Particle) (now : R) :
  elapsed particle now < 0 <-> now < startTime particle.
Proof. unfold elapsed. split; intros H; lra. Qed.

(** X1.  The three outcomes of [calculatePhysics]: it returns [null] exactly
    when [now] lies before the particle's start; it throws exactly when that
    is not so and the particle's scenario is none of 1, 2, 3; otherwise it
    returns a state.  It writes nothing to the particle but [isDead], and that
    exactly when the returned state is an impact. *)
Theorem calculatePhysics_outcome (particle : Particle) (now : R) :
  (fst (calculatePhysics particle now) = Null <-> now < startTime particle)
  /\ (fst (calculatePhysics particle now) = Throws <->
      startTime particle <= now
      /\ scenario particle <> 1%Z /\ scenario particle <> 2%Z
      /\ scenario particle <> 3%Z)
  /\ (forall s, fst (calculatePhysics particle now) = Ret s ->
      snd (calculatePhysics particle now)
      = if impact s then mark_dead particle else particle)
  /\ (fst (calculatePhysics particle now) = Null
      \/ fst (calculatePhysics particle now) = Throws ->
      snd (calculatePhysics particle now) = particle).
Proof.
  pose proof (elapsed_negative particle now) as Hneg.
  pose proof (find_config_none (scenario particle)) as Hnone.
  unfold calculatePhysics.
  destruct (Rlt_dec (elapsed particle now) 0) as [Hlt | Hge]; simpl.
  { split; [tauto |]. split; [split; [discriminate | intros [? _]; lra] |].
    split; [discriminate | reflexivity]. }
  assert (Hle : startTime particle <= now).
  { destruct (Rle_dec (startTime particle) now) as [L | NL]; [exact L |].
    exfalso. apply Hge, Hneg. lra. }
  destruct (find_config (scenario particle)) as [cfg |] eqn:Ecfg; simpl.
  2:{ split; [split; [discriminate | intros C; lra] |].
      split; [split; [intros _; split; [exact Hle | apply Hnone; reflexivity]
                     | reflexivity] |].
      split; [discriminate | reflexivity]. }
  assert (Hsome : ~ (scenario particle <> 1%Z /\ scenario particle <> 2%Z
                     /\ scenario particle <> 3%Z)).
  { intros C. apply Hnone in C. discriminate. }
  destruct (Rle_dec _ 0.45); [destruct (Rlt_dec _ 0) |]; simpl;
    (split; [split; [discriminate | intros C; lra] |];
     split; [split; [discriminate | intros [_ C]; contradiction] |];
     split; [intros s Hs; injection Hs as <-; reflexivity
            | intros [C | C]; discriminate]).
Qed.




Lemma calculatePhysics_returns (particle : Particle) (now : R) (cfg : Config) :
  0 <= elapsed particle now ->
  find_config (scenario particle) = Some cfg ->
  exists s p', calculatePhysics particle now = (Ret s, p').
Proof.
  intros Hdt Hcfg. unfold calculatePhysics. rewrite Hcfg.
  destruct (Rlt_dec (elapsed particle now) 0); [lra |].
  destruct (Rle_dec _ 0.45); [destruct (Rlt_dec _ 0) |];
    eexists; eexists; reflexivity.
Qed.













(** ** More on the solver *)

Lemma maxHeight_bounds (hs vy0 : R) :
  (vy0 <= 0 -> maxHeight_of hs vy0 = hs)
  /\ (0 < vy0 ->
      hs < maxHeight_of hs vy0 /\ maxHeight_of hs vy0 < hs + vy0 / beta).
Proof.
  pose proof beta_pos as Hb. pose proof g_pos as Hg. split.
  - intros Hv. unfold maxHeight_of.
    destruct (Rlt_dec 0 (tApex_of vy0)) as [Hap | _]; [| reflexivity].
    apply (proj1 (tApex_positive_iff vy0)) in Hap. exfalso. lra.
  - intros Hv. rewrite maxHeight_closed by exact Hv.
    assert (Hsum : g < g + beta * vy0).
    { assert (0 < beta * vy0) by (apply Rmult_lt_0_compat; assumption). lra. }
    set (d := ln (g + beta * vy0) - ln g).
    assert (Hd : 0 < d) by (unfold d; pose proof (ln_increasing g _ Hg Hsum); lra).
    assert (Hexp : exp d = 1 + beta * vy0 * / g).
    { unfold d, Rminus. rewrite exp_plus, exp_Ropp, !exp_ln by lra.
      field. lra. }
    assert (Hne : d <> 0) by lra.
    pose proof (exp_ineq1 d Hne) as Hlt. rewrite Hexp in Hlt.
    assert (Hk : 0 < g / (beta * beta))
      by (apply Rdiv_lt_0_compat; [lra | apply Rmult_lt_0_compat; lra]).
    assert (Hup : g / (beta * beta) * d < g / (beta * beta) * (beta * vy0 * / g))
      by (apply Rmult_lt_compat_l; lra).
    replace (g / (beta * beta) * (beta * vy0 * / g)) with (vy0 / beta) in Hup
      by (field; lra).
    assert (Hlo : 0 < g / (beta * beta) * d) by (apply Rmult_lt_0_compat; lra).
    split; lra.
Qed.

Lemma solveScenario_drag_inv (scenarioId : Z) (angleDeg v0 : R)
  (r : PhysicsResult) :
  scenarioId <> 1%Z ->
  solveScenario scenarioId angleDeg v0 = Some r ->
  range r = (v0 * cos (to_rad angleDeg) / beta) * (1 - exp (- beta * time r))
  /\ height r = maxHeight_of (solver_h0 scenarioId) (v0 * sin (to_rad angleDeg))
  /\ newton_loop 15 (solver_h0 scenarioId) (v0 * sin (to_rad angleDeg))
                 (solver_seed scenarioId) = Some (time r).
Proof.
  intros Hid Hr.
  destruct (newton_loop 15 (solver_h0 scenarioId)
              (v0 * sin (to_rad angleDeg)) (solver_seed scenarioId))
    as [t |] eqn:Et.
  - rewrite (solveScenario_drag _ _ _ _ Hid Et) in Hr.
    injection Hr as <-. simpl. repeat split; reflexivity.
  - rewrite (solveScenario_drag_none _ _ _ Hid Et) in Hr. discriminate.
Qed.

Lemma drag_result_30_2p5 (scenarioId : Z) :
  scenarioId <> 1%Z ->
  exists r, solveScenario scenarioId 30 2.5 = Some r.
Proof.
  intros Hid.
  destruct (drag_loop_after_root scenarioId 30 2.5) as (t & Et & _);
    [lra | lra | apply seed_falls_30_2p5 |].
  eexists. apply (solveScenario_drag _ _ _ _ Hid Et).
Qed.

(** X7.  In the drag regime the reported [height] is never below the solver's
    launch height (0, or 1.0 in scenario 3): it is the launch height itself
    for a launch that does not go upwards, and for an upward launch it lies
    strictly between the launch height and the launch height plus
    [vy0 / beta]. *)
Theorem drag_height_bounds
  (scenarioId : Z) (angleDeg v0 : R) (r : PhysicsResult) :
  scenarioId <> 1%Z ->
  solveScenario scenarioId angleDeg v0 = Some r ->
  solver_h0 scenarioId <= height r
  /\ (v0 * sin (to_rad angleDeg) <= 0 -> height r = solver_h0 scenarioId)
  /\ (0 < v0 * sin (to_rad angleDeg) ->
      solver_h0 scenarioId < height r
      /\ height r < solver_h0 scenarioId + v0 * sin (to_rad angleDeg) / beta).
Proof.
  intros Hid Hr.
  destruct (solveScenario_drag_inv _ _ _ _ Hid Hr) as (_ & Hh & _).
  rewrite Hh.
  destruct (maxHeight_bounds (solver_h0 scenarioId)
              (v0 * sin (to_rad angleDeg))) as [Hflat Hup].
  split; [| split; assumption].
  destruct (Rle_dec (v0 * sin (to_rad angleDeg)) 0) as [Hle | Hgt].
  - rewrite (Hflat Hle). lra.
  - destruct Hup as [Hlo _]; lra.
Qed.

Lemma drag_height_bounds_witness :
  exists r, solveScenario 3 30 2.5 = Some r /\ solver_h0 3 <= height r.
Proof.
  destruct (drag_result_30_2p5 3) as (r & Hr); [discriminate |].
  exists r. split; [exact Hr |].
  apply (drag_height_bounds 3 30 2.5 r); [discriminate | exact Hr].
Defined.






(** X11.  The telemetry of scenario 1 shows an efficiency of 100 per cent for
    every angle and every speed other than 0. *)
Theorem no_drag_efficiency_is_100 (sim : Simulation) (currentV0 : R) :
  activeScenario sim = 1%Z ->
  currentV0 <> 0 ->
  exists target,
    updateTelemetry sim currentV0 = Some (target, 100%Z)
    /\ solveScenario 1 (activeAngle sim) currentV0 = Some target.
Proof.
  intros Hs Hv. unfold updateTelemetry. rewrite Hs.
  rewrite solveScenario_no_drag.
  destruct (Req_dec_T currentV0 0) as [E | _]; [contradiction |].
  eexists. split; [| reflexivity]. simpl vFinal.
  f_equal. f_equal. unfold Math_round. symmetry. apply Int_part_spec.
  replace (currentV0 / currentV0 * 100) with 100 by (field; exact Hv).
  split; lra.
Qed.

Lemma no_drag_efficiency_is_100_witness :
  exists target,
    updateTelemetry (mkSimulation [] 1 30 false) 2.5 = Some (target, 100%Z)
    /\ solveScenario 1 30 2.5 = Some target.
Proof.
  apply (no_drag_efficiency_is_100 (mkSimulation [] 1 30 false) 2.5);
    [reflexivity | lra].
Defined.

(** ** The backward loops of [p.draw] *)

Section BackwardLoop.

Context {A : Type}.
Variable body : A -> option (option A).

Lemma kept_snoc (l : list A) (a : A) :
  kept body (l ++ [a])
  = match body a with
    | None => None
    | Some oa =>
        option_map
          (fun k => k ++ match oa with Some a' => [a'] | None => [] end)
          (kept body l)
    end.
Proof.
  induction l as [| b l IH]; simpl.
  - destruct (body a) as [[a' |] |]; reflexivity.
  - rewrite IH.
    destruct (body b) as [[b' |] |], (body a) as [[a' |] |];
      try reflexivity; destruct (kept body l); reflexivity.
Qed.

Lemma firstn_exact (l r : list A) : firstn (length l) (l ++ r) = l.
Proof.
  induction l as [| b l IH]; simpl; [destruct r; reflexivity |].
  rewrite IH. reflexivity.
Qed.

Lemma skipn_past (l r : list A) (a : A) :
  skipn (S (length l)) (l ++ a :: r) = r.
Proof. induction l as [| b l IH]; simpl; [reflexivity | exact IH]. Qed.

Lemma remove_at_middle (l l2 : list A) (a : A) :
  remove_at (length l) ((l ++ [a]) ++ l2) = l ++ l2.
Proof.
  unfold remove_at. rewrite <- app_assoc.
  change ([a] ++ l2) with (a :: l2).
  rewrite firstn_exact, skipn_past. reflexivity.
Qed.

Lemma set_at_middle (l l2 : list A) (a a' : A) :
  set_at (length l) a' ((l ++ [a]) ++ l2) = l ++ a' :: l2.
Proof.
  unfold set_at. rewrite <- app_assoc.
  change ([a] ++ l2) with (a :: l2).
  rewrite firstn_exact, skipn_past. reflexivity.
Qed.

Lemma nth_error_middle (l l2 : list A) (a : A) :
  nth_error ((l ++ [a]) ++ l2) (length l) = Some a.
Proof.
  rewrite <- app_assoc, nth_error_app2 by lia.
  rewrite Nat.sub_diag. reflexivity.
Qed.

(** The loop from the end of [l1] leaves what lies behind it alone and keeps
    of [l1] what a pass in any order would keep. *)
Lemma backward_loop_kept (l1 : list A) :
  forall l2,
    backward_loop body (length l1) (l1 ++ l2)
    = option_map (fun k => k ++ l2) (kept body l1).
Proof.
  induction l1 as [| a l IH] using rev_ind; intros l2.
  - reflexivity.
  - rewrite length_app, Nat.add_1_r. simpl backward_loop.
    rewrite nth_error_middle, kept_snoc.
    destruct (body a) as [[a' |] |].
    + rewrite set_at_middle, IH.
      destruct (kept body l); simpl; [| reflexivity].
      rewrite <- app_assoc. reflexivity.
    + rewrite remove_at_middle, IH.
      destruct (kept body l); simpl; [| reflexivity].
      rewrite app_nil_r. reflexivity.
    + reflexivity.
Qed.

Lemma backward_loop_whole (l : list A) :
  backward_loop body (length l) l = kept body l.
Proof.
  pose proof (backward_loop_kept l []) as H. rewrite app_nil_r in H.
  rewrite H. destruct (kept body l); simpl; [rewrite app_nil_r |]; reflexivity.
Qed.

Lemma kept_length (l l' : list A) :
  kept body l = Some l' -> (length l' <= length l)%nat.
Proof.
  revert l'. induction l as [| a l IH]; intros l' H; simpl in H.
  - injection H as <-. simpl. lia.
  - destruct (body a) as [[a' |] |]; [| | discriminate];
      destruct (kept body l) as [k |]; try discriminate;
      injection H as <-; specialize (IH k eq_refl); simpl; lia.
Qed.

Lemma kept_Forall (P Q : A -> Prop) (l l' : list A) :
  (forall a a', P a -> body a = Some (Some a') -> Q a') ->
  Forall P l ->
  kept body l = Some l' ->
  Forall Q l'.
Proof.
  intros Hstep. revert l'.
  induction l as [| a l IH]; intros l' HP H; simpl in H.
  - injection H as <-. constructor.
  - inversion HP as [| ? ? Pa Pl]; subst.
    destruct (body a) as [[a' |] |] eqn:Ea; [| | discriminate];
      destruct (kept body l) as [k |]; try discriminate;
      injection H as <-.
    + constructor; [apply (Hstep a a' Pa Ea) | apply IH; auto].
    + apply IH; auto.
Qed.

Lemma kept_returns (P : A -> Prop) (l : list A) :
  (forall a, P a -> body a <> None) ->
  Forall P l ->
  exists l', kept body l = Some l'.
Proof.
  intros Hok HP. induction HP as [| a l Pa Pl IH]; simpl.
  - eexists. reflexivity.
  - destruct IH as (k & ->).
    destruct (body a) as [[a' |] |] eqn:Ea.
    + eexists. reflexivity.
    + eexists. reflexivity.
    + exfalso. apply (Hok a Pa Ea).
Qed.

(** Every element that its pass leaves in the array is found in the result,
    and the result holds nothing else. *)
Lemma kept_In (l l' : list A) (a' : A) :
  kept body l = Some l' ->
  (In a' l' <-> exists a, In a l /\ body a = Some (Some a')).
Proof.
  revert l'. induction l as [| a l IH]; intros l' H; simpl in H.
  - injection H as <-. simpl. split; [tauto | intros (a & [] & _)].
  - destruct (body a) as [[b |] |] eqn:Ea; [| | discriminate];
      destruct (kept body l) as [k |]; try discriminate;
      injection H as <-; specialize (IH k eq_refl).
    + simpl. split.
      * intros [<- | Hin]; [exists a; auto |].
        apply IH in Hin. destruct Hin as (c & Hc & Ec). exists c. auto.
      * intros (c & [<- | Hc] & Ec).
        -- left. congruence.
        -- right. apply IH. exists c. auto.
    + split.
      * intros Hin. apply IH in Hin. destruct Hin as (c & Hc & Ec).
        exists c. simpl. auto.
      * intros (c & [<- | Hc] & Ec); [congruence |].
        apply IH. exists c. auto.
Qed.

End BackwardLoop.

(** ** Emission and the particle loop *)

Lemma push_history_length (h : list Point) (pt : Point) :
  (length h <= TRAIL_LENGTH)%nat ->
  (length (push_history h pt) <= TRAIL_LENGTH)%nat.
Proof.
  intros Hlen. unfold push_history.
  destruct (Nat.ltb_spec TRAIL_LENGTH (length (h ++ [pt]))) as [Hlt | Hge].
  - rewrite tl_is_skipn, length_skipn, length_app. simpl. lia.
  - exact Hge.
Qed.

Lemma push_history_nonempty (h : list Point) (pt : Point) :
  push_history h pt <> [].
Proof.
  unfold push_history.
  destruct (Nat.ltb_spec TRAIL_LENGTH (length (h ++ [pt]))) as [Hlt | Hge].
  - intros C. apply (f_equal (@length Point)) in C.
    rewrite tl_is_skipn, length_skipn in C.
    rewrite length_app in *. unfold TRAIL_LENGTH in Hlt. simpl in *. lia.
  - destruct h; discriminate.
Qed.

Lemma calculatePhysics_particle (particle p1 : Particle) (now : R) (o : Outcome) :
  calculatePhysics particle now = (o, p1) ->
  p1 = particle \/ p1 = mark_dead particle.
Proof.
  unfold calculatePhysics. intros H.
  destruct (Rlt_dec (elapsed particle now) 0); [injection H as _ <-; auto |].
  destruct (find_config (scenario particle)); [| injection H as _ <-; auto].
  destruct (Rle_dec _ 0.45); [destruct (Rlt_dec _ 0) |];
    injection H as _ <-; auto.
Qed.

Lemma expired_false (particle : Particle) (now : R) :
  expired particle now = false ->
  now - startTime particle <= PARTICLE_LIFETIME.
Proof.
  unfold expired. destruct (Rlt_dec _ _); [discriminate | intros _; lra].
Qed.

Lemma draw_particle_returns (f : Frame) (particle : Particle) :
  find_config (scenario particle) <> None -> draw_particle f particle <> None.
Proof.
  intros Hcfg. unfold draw_particle, calculatePhysics.
  destruct (Rlt_dec (elapsed particle (now_ms f)) 0); [discriminate |].
  destruct (find_config (scenario particle)); [| contradiction].
  destruct (Rle_dec _ 0.45); [destruct (Rlt_dec _ 0) |]; discriminate.
Qed.

(** What a pass that does not splice the particle out leaves of it. *)
Lemma particle_body_keeps (f : Frame) (particle p' : Particle) :
  particle_body f particle = Some (Some p') ->
  startTime p' = startTime particle
  /\ scenario p' = scenario particle
  /\ isDead p' = false
  /\ now_ms f - startTime p' <= PARTICLE_LIFETIME
  /\ ((length (history particle) <= TRAIL_LENGTH)%nat ->
      (length (history p') <= TRAIL_LENGTH)%nat)
  /\ (startTime particle <= now_ms f -> history p' <> []).
Proof.
  unfold particle_body.
  destruct (draw_particle f particle) as [pass |] eqn:Ed; [| discriminate].
  destruct (spliced pass) eqn:Es; [discriminate |].
  intros H. injection H as <-.
  unfold draw_particle in Ed.
  destruct (calculatePhysics particle (now_ms f)) as [o p1] eqn:Ec.
  destruct (calculatePhysics_keeps_history _ _ _ _ Ec)
    as (Hhist & _ & Himp & _ & _).
  assert (Hsame : startTime p1 = startTime particle
                  /\ scenario p1 = scenario particle).
  { destruct (calculatePhysics_particle _ _ _ _ Ec) as [-> | ->];
      split; reflexivity. }
  destruct Hsame as [Hst Hsc].
  destruct o as [| | state]; [| discriminate |];
    injection Ed as <-; simpl in *;
    apply orb_false_elim in Es; destruct Es as [Hdead Hexp];
    apply expired_false in Hexp.
  - rewrite Hhist.
    split; [exact Hst |]. split; [exact Hsc |]. split; [exact Hdead |].
    split; [exact Hexp |]. split; [intros Hlen; exact Hlen |].
    intros Hstart. exfalso.
    unfold calculatePhysics in Ec.
    destruct (Rlt_dec (elapsed particle (now_ms f)) 0) as [Hneg | _].
    + unfold elapsed in Hneg. lra.
    + destruct (find_config (scenario particle)); [| discriminate].
      destruct (Rle_dec _ 0.45); [destruct (Rlt_dec _ 0) |]; discriminate.
  - destruct (impact state) eqn:Ei; simpl in *.
    + rewrite (Himp state eq_refl Ei) in Hdead. discriminate.
    + rewrite Hhist.
      split; [exact Hst |]. split; [exact Hsc |]. split; [exact Hdead |].
      split; [exact Hexp |]. split.
      * intros Hlen. apply push_history_length, Hlen.
      * intros _. apply push_history_nonempty.
Qed.

(** X12.  The particle loop, which walks [sim.particles] from its end and
    splices while it walks, skips nothing and disturbs nothing: its result is
    what a walk in any order keeps, namely the particles that their pass does
    not splice out, each as its pass leaves it, in their order; it throws
    exactly when some pass does. *)
Theorem particle_pass_keeps_the_rest (f : Frame) (ps : list Particle) :
  particle_pass f ps = kept (particle_body f) ps
  /\ (particle_pass f ps = None <->
      exists p, In p ps /\ draw_particle f p = None)
  /\ forall ps',
       particle_pass f ps = Some ps' ->
       (length ps' <= length ps)%nat
       /\ forall p',
            In p' ps' <->
            exists p pass,
              In p ps /\ draw_particle f p = Some pass
              /\ spliced pass = false /\ after pass = p'.
Proof.
  unfold particle_pass. rewrite backward_loop_whole.
  split; [reflexivity |]. split.
  - split.
    + intros Hnone.
      destruct (Exists_dec (fun p => draw_particle f p = None) ps) as [Hex | Hall].
      { intros p. destruct (draw_particle f p); [right; discriminate | left; reflexivity]. }
      * apply Exists_exists in Hex. exact Hex.
      * exfalso.
        destruct (kept_returns (particle_body f)
                    (fun p => draw_particle f p <> None) ps) as (k & Hk).
        -- intros p Hp. unfold particle_body.
           destruct (draw_particle f p); [discriminate | contradiction].
        -- apply Forall_forall. intros p Hp C. apply Hall.
           apply Exists_exists. exists p. auto.
        -- congruence.
    + intros (p & Hp & Hd).
      destruct (kept (particle_body f) ps) as [k |] eqn:Hk; [| reflexivity].
      exfalso. clear - Hp Hd Hk. revert k Hk.
      induction ps as [| a ps IH]; intros k Hk; [destruct Hp |].
      simpl in Hk.
      destruct (particle_body f a) as [[a' |] |] eqn:Ea; [| | discriminate];
        destruct (kept (particle_body f) ps) as [k' |]; try discriminate;
        (destruct Hp as [<- | Hp];
         [unfold particle_body in Ea; rewrite Hd in Ea; discriminate
         | apply (IH Hp k' eq_refl)]).
  - intros ps' Hk. split; [apply (kept_length _ _ _ Hk) |].
    intros p'. rewrite (kept_In _ _ _ p' Hk). split.
    + intros (p & Hp & Hb). unfold particle_body in Hb.
      destruct (draw_particle f p) as [pass |] eqn:Ed; [| discriminate].
      destruct (spliced pass) eqn:Es; [discriminate |].
      injection Hb as <-. exists p, pass. auto.
    + intros (p & pass & Hp & Ed & Es & <-).
      exists p. split; [exact Hp |].
      unfold particle_body. rewrite Ed, Es. reflexivity.
Qed.

Lemma particle_pass_returns (f : Frame) (ps : list Particle) :
  Forall (fun p => find_config (scenario p) <> None) ps ->
  exists ps', particle_pass f ps = Some ps'.
Proof.
  intros Hall. unfold particle_pass. rewrite backward_loop_whole.
  apply (kept_returns (particle_body f)
           (fun p => find_config (scenario p) <> None)); [| exact Hall].
  intros p Hp. unfold particle_body.
  pose proof (draw_particle_returns f p Hp) as Hd.
  destruct (draw_particle f p); [discriminate | contradiction].
Qed.

(** X13.  After the particle loop no particle left in [sim.particles] is dead
    or older than [PARTICLE_LIFETIME], and if no history was longer than 15
    entries before, none is afterwards. *)
Theorem particle_pass_leaves_live (f : Frame) (ps ps' : list Particle) :
  particle_pass f ps = Some ps' ->
  Forall (fun p => isDead p = false
                   /\ now_ms f - startTime p <= PARTICLE_LIFETIME) ps'
  /\ (Forall (fun p => (length (history p) <= TRAIL_LENGTH)%nat) ps ->
      Forall (fun p => (length (history p) <= TRAIL_LENGTH)%nat) ps').
Proof.
  unfold particle_pass. rewrite backward_loop_whole. intros Hk. split.
  - apply (kept_Forall (particle_body f) (fun _ => True) _ ps ps');
      [| apply Forall_forall; auto | exact Hk].
    intros p p' _ Hb.
    destruct (particle_body_keeps _ _ _ Hb) as (_ & _ & Hd & He & _).
    split; assumption.
  - intros Hlen.
    apply (kept_Forall (particle_body f)
             (fun p => (length (history p) <= TRAIL_LENGTH)%nat) _ ps ps');
      [| exact Hlen | exact Hk].
    intros p p' Hp Hb.
    destruct (particle_body_keeps _ _ _ Hb) as (_ & _ & _ & _ & Hh & _).
    apply Hh, Hp.
Qed.

Lemma particle_pass_leaves_live_witness :
  exists ps',
    particle_pass (mkFrame 0 1200 800 0)
                  [jitter_free (mkConfig 1 0.17 0.45 1 "S1") 45 5 0;
                   jitter_free (mkConfig 3 0.901 1.0 (-1) "S3") 30 2.5 0]
    = Some ps'
    /\ Forall (fun p => isDead p = false
                        /\ 0 - startTime p <= PARTICLE_LIFETIME) ps'.
Proof.
  destruct (particle_pass_returns (mkFrame 0 1200 800 0)
              [jitter_free (mkConfig 1 0.17 0.45 1 "S1") 45 5 0;
               jitter_free (mkConfig 3 0.901 1.0 (-1) "S3") 30 2.5 0])
    as (ps' & E).
  { repeat constructor; discriminate. }
  exists ps'. split; [exact E |].
  destruct (particle_pass_leaves_live _ _ _ E) as [H _]. exact H.
Defined.

(** X14.  The splash loop never throws; it leaves in [sim.splashes], in their
    order, exactly the splashes that are not older than their maximum age
    (600 ms for mist, 400 ms otherwise), each moved by its velocity, and
    drops the others. *)
Theorem splash_pass_drops_the_old
  (pmap : R -> R -> R -> R -> R -> R) (now : R) (ss : list Splash) :
  exists ss',
    splash_pass pmap now ss = Some ss'
    /\ kept (splash_body pmap now) ss = Some ss'
    /\ (length ss' <= length ss)%nat
    /\ Forall (fun s' => now - splash_startTime s' <= maxAge_of s') ss'
    /\ forall s',
         In s' ss' <->
         exists s,
           In s ss /\ now - splash_startTime s <= maxAge_of s
           /\ splash_body pmap now s = Some (Some s')
           /\ splash_x s' = splash_x s + splash_vx s
           /\ splash_y s' = splash_y s + splash_vy s.
Proof.
  unfold splash_pass. rewrite backward_loop_whole.
  destruct (kept_returns (splash_body pmap now) (fun _ => True) ss)
    as (ss' & Hk).
  { intros s _. unfold splash_body.
    destruct (Rlt_dec _ _); discriminate. }
  { apply Forall_forall. auto. }
  assert (Hstep : forall s s',
             splash_body pmap now s = Some (Some s') ->
             now - splash_startTime s <= maxAge_of s
             /\ splash_startTime s' = splash_startTime s
             /\ maxAge_of s' = maxAge_of s
             /\ splash_x s' = splash_x s + splash_vx s
             /\ splash_y s' = splash_y s + splash_vy s).
  { intros s s'. unfold splash_body.
    destruct (Rlt_dec (maxAge_of s) (now - splash_startTime s)) as [L | NL];
      [discriminate |].
    intros H. injection H as <-. simpl.
    split; [lra |]. repeat split; reflexivity. }
  exists ss'. split; [exact Hk |]. split; [exact Hk |].
  split; [apply (kept_length _ _ _ Hk) |]. split.
  - apply (kept_Forall (splash_body pmap now) (fun _ => True) _ ss ss');
      [| apply Forall_forall; auto | exact Hk].
    intros s s' _ Hb.
    destruct (Hstep s s' Hb) as (Ha & Hs & Hm & _). rewrite Hs, Hm. exact Ha.
  - intros s'. rewrite (kept_In _ _ _ s' Hk). split.
    + intros (s & Hin & Hb).
      destruct (Hstep s s' Hb) as (Ha & _ & _ & Hx & Hy).
      exists s. auto 6.
    + intros (s & Hin & _ & Hb & _). exists s. auto.
Qed.

(** ** Emission *)

Lemma emit_appends (rnd : nat -> R -> R -> R) (n : nat) :
  forall (k : nat) (now : R) (cfg : Config) (active : Z)
         (angleRad currentV0 startY : R) (ps : list Particle),
    emit rnd n k now cfg active angleRad currentV0 startY ps
    = ps ++ map (fun i => new_particle rnd (k + 4 * i) now cfg active angleRad
                                       currentV0 startY)
                (seq 0 n).
Proof.
  induction n as [| n IH]; intros k now cfg active angleRad v0 startY ps.
  - simpl. rewrite app_nil_r. reflexivity.
  - simpl emit. rewrite IH, <- app_assoc. f_equal.
    simpl. rewrite Nat.add_0_r. f_equal.
    rewrite <- seq_shift, map_map.
    apply map_ext. intros i. f_equal. lia.
Qed.

Section Emission.

Variable rnd : nat -> R -> R -> R.
Hypothesis rnd_range : forall k lo hi, lo < hi -> lo <= rnd k lo hi < hi.

Lemma new_particle_emitted (sim : Simulation) (cfg : Config) (k : nat)
  (now currentV0 : R) :
  emitted sim cfg now currentV0
    (new_particle rnd k now cfg (activeScenario sim)
       ((activeAngle sim * PI) / 180) currentV0
       (GROUND_LINE_NORM
        - (cfg_h0 cfg - 0.25)
          * ((GROUND_LINE_NORM - NOZZLE_TOP_NORM) / (1.0 - 0.25)))).
Proof.
  unfold emitted, new_particle. simpl.
  assert (H16 : 0 < 16) by lra.
  assert (Ha : -0.02 < 0.02) by lra.
  assert (Hv : -0.05 < 0.05) by lra.
  assert (Hs : 1.2 < 3) by lra.
  pose proof (rnd_range k 0 16 H16) as R1.
  pose proof (rnd_range (k + 1) _ _ Ha) as R2.
  pose proof (rnd_range (k + 2) _ _ Hv) as R3.
  pose proof (rnd_range (k + 3) _ _ Hs) as R4.
  repeat split; try reflexivity; try lra.
  - unfold to_rad. apply Rabs_le. lra.
  - apply Rabs_le. lra.
Qed.

Lemma addParticles_result (k : nat) (now currentV0 : R) (sim : Simulation)
  (cfg : Config) :
  getCurrent sim = Some cfg ->
  exists news,
    addParticles rnd k now currentV0 sim
    = Some {| particles := particles sim ++ news;
              activeScenario := activeScenario sim;
              activeAngle := activeAngle sim;
              isLaunching := isLaunching sim |}
    /\ length news = EMISSION_RATE
    /\ Forall (emitted sim cfg now currentV0) news.
Proof.
  intros Hcfg. unfold addParticles. rewrite Hcfg.
  rewrite emit_appends. eexists. split; [reflexivity |]. split.
  - rewrite length_map, length_seq. reflexivity.
  - apply Forall_forall. intros p Hp. apply in_map_iff in Hp.
    destruct Hp as (i & <- & _). apply new_particle_emitted.
Qed.

End Emission.

(** X15.  [addParticles] throws when the active scenario is none of the three
    configurations and pushes nothing then.  Otherwise it leaves the particles
    there are untouched and appends exactly 8 new ones to them, each alive,
    with an empty history, of the active scenario and at its emission height
    and screen start, started within the last 16 ms, with an angle within 0.02
    rad of the active angle, a speed within 0.05 of [currentV0] and a size
    from 1.2 to 3. *)
Theorem addParticles_emits
  (rnd : nat -> R -> R -> R) (k : nat) (now currentV0 : R) (sim : Simulation) :
  (forall j lo hi, lo < hi -> lo <= rnd j lo hi < hi) ->
  (getCurrent sim = None -> addParticles rnd k now currentV0 sim = None)
  /\ (forall cfg,
        getCurrent sim = Some cfg ->
        exists news,
          addParticles rnd k now currentV0 sim
          = Some {| particles := particles sim ++ news;
                    activeScenario := activeScenario sim;
                    activeAngle := activeAngle sim;
                    isLaunching := isLaunching sim |}
          /\ length news = EMISSION_RATE
          /\ Forall (emitted sim cfg now currentV0) news).
Proof.
  intros Hrnd. split.
  - intros Hnone. unfold addParticles. rewrite Hnone. reflexivity.
  - intros cfg Hcfg. apply (addParticles_result rnd Hrnd), Hcfg.
Qed.

Lemma addParticles_emits_witness :
  exists news,
    addParticles (fun _ lo _ => lo) 0 1000 2.5 (mkSimulation [] 3 30 true)
    = Some (mkSimulation ([] ++ news) 3 30 true)
    /\ length news = EMISSION_RATE.
Proof.
  assert (Hrnd : forall (j : nat) (lo hi : R),
             lo < hi -> lo <= (fun (_ : nat) (l _ : R) => l) j lo hi < hi)
    by (intros j lo hi H; simpl; lra).
  destruct (addParticles_emits (fun _ lo _ => lo) 0 1000 2.5
              (mkSimulation [] 3 30 true) Hrnd) as [_ Hsome].
  destruct (Hsome (mkConfig 3 0.901 1.0 (-1) "S3") eq_refl)
    as (news & E & Hlen & _).
  exists news. split; [exact E | exact Hlen].
Defined.

(** X16.  A particle pushed by [addParticles] at [now] is evaluated to a state
    at that time and at every later one: for it [calculatePhysics] returns
    neither [null] nor throws. *)
Theorem emitted_particle_is_evaluated
  (rnd : nat -> R -> R -> R) (k : nat) (now currentV0 now' : R)
  (sim sim' : Simulation) (news : list Particle) (p : Particle) :
  (forall j lo hi, lo < hi -> lo <= rnd j lo hi < hi) ->
  addParticles rnd k now currentV0 sim = Some sim' ->
  particles sim' = particles sim ++ news ->
  In p news ->
  now <= now' ->
  exists s p', calculatePhysics p now' = (Ret s, p').
Proof.
  intros Hrnd Hadd Hparts Hin Hle.
  destruct (getCurrent sim) as [cfg |] eqn:Hcfg.
  2:{ unfold addParticles in Hadd. rewrite Hcfg in Hadd. discriminate. }
  destruct (addParticles_result rnd Hrnd k now currentV0 sim cfg Hcfg)
    as (news0 & E & _ & Hall).
  rewrite E in Hadd. injection Hadd as <-. simpl in Hparts.
  apply app_inv_head in Hparts. subst news0.
  rewrite Forall_forall in Hall.
  destruct (Hall p Hin) as (Hsc & _ & _ & _ & _ & _ & [_ Hst] & _).
  apply (calculatePhysics_returns p now' cfg).
  - unfold elapsed. lra.
  - rewrite Hsc. exact Hcfg.
Qed.

Lemma emitted_particle_is_evaluated_witness :
  exists s p',
    calculatePhysics
      (new_particle (fun _ lo _ => lo) 0 1000
         (mkConfig 3 0.901 1.0 (-1) "S3") 3 ((30 * PI) / 180) 2.5
         (GROUND_LINE_NORM
          - (1.0 - 0.25) * ((GROUND_LINE_NORM - NOZZLE_TOP_NORM) / (1.0 - 0.25))))
      1016
    = (Ret s, p').
Proof.
  assert (Hrnd : forall (j : nat) (lo hi : R),
             lo < hi -> lo <= (fun (_ : nat) (l _ : R) => l) j lo hi < hi)
    by (intros j lo hi H; simpl; lra).
  refine (emitted_particle_is_evaluated (fun _ lo _ => lo) 0 1000 2.5 1016
            (mkSimulation [] 3 30 true) _ _ _ Hrnd eq_refl eq_refl _ _).
  - left. reflexivity.
  - lra.
Defined.

(** ** A frame of [p.draw] on [sim.particles] *)






(** ** More on the Newton loop and the drag formulas *)










